(** * FaceRecognition: the attendance polling loop

    A shallow embedding of [src/components/FaceRecognition.tsx]: the
    interval callback registered by [handleVideoPlay], the per-label
    [lastMarkedTime] store, and the three callbacks of
    [FaceRecognitionProps].

    Numbers are JavaScript numbers holding [Date.now()] readings (integral
    milliseconds, far below 2^53), so they are modelled as [Z] and the
    subtraction [now - lastMarkedTime[studentName]] is exact.  The store is
    a plain object used as a map from label to number; the recognizer only
    returns the labels [loadLabeledImages] gives to the [FaceMatcher]
    ("Student1", "Student2") or "unknown", none of which names an
    inherited object property, so reading the object is an own-property
    lookup in a [gmap string Z]. *)

From stdpp Require Import gmap strings list fin_maps pretty.
From Stdlib Require Import ZArith Lia.

(** ** Data *)

(** The callbacks of [FaceRecognitionProps].  [onAttendanceMarked] takes the
    student name only; the second component recorded here is the value of
    [now] in the iteration that made the call (the same number the
    iteration writes into [lastMarkedTime]). *)
Inductive call : Type :=
  | onAttendanceMarked (studentName : string) (now : Z)
  | onFaceNotDetected
  | onFaceDetected (studentName : string).

(** One iteration of [results.forEach]: the label of the best match
    ([result.label]) and what [Date.now()] returned in that iteration
    ([const now = Date.now()] is inside the callback, so every iteration
    reads the clock itself). *)
Record result : Type := Result { label : string; now : Z }.

(** ** The test of line 89

    [!lastMarkedTime[studentName] || now - lastMarkedTime[studentName] > 60000] *)

(** [!v] for [v] a number or [undefined]: [undefined] and [0] are falsy. *)
Definition js_not (v : option Z) : bool :=
  match v with
  | None => true
  | Some t => (t =? 0)%Z
  end.

(** [now - v > ms]; [now - undefined] is [NaN], and [NaN > ms] is false. *)
Definition js_elapsed_gt (now : Z) (v : option Z) (ms : Z) : bool :=
  match v with
  | None => false
  | Some t => (ms <? now - t)%Z
  end.

Definition should_mark (lastMarkedTime : gmap string Z) (studentName : string) (now : Z) : bool :=
  js_not (lastMarkedTime !! studentName)
  || js_elapsed_gt now (lastMarkedTime !! studentName) 60000.

(** ** The body of the interval callback *)

(** The callback passed to [results.forEach] (lines 76-94), threading the
    two variables it mutates ([lastMarkedTime], [faceDetected]) and
    returning the calls it makes. Drawing on the canvas is left out. *)
Definition forEach_callback (lastMarkedTime : gmap string Z) (faceDetected : bool)
    (r : result) : gmap string Z * bool * list call :=
  let studentName := label r in
  let now := now r in
  if negb (String.eqb studentName "unknown") then
    if should_mark lastMarkedTime studentName now then
      (<[studentName := now]> lastMarkedTime, true, [onAttendanceMarked studentName now])
    else
      (lastMarkedTime, true, [])
  else
    (lastMarkedTime, faceDetected, []).

(** [results.forEach(...)]: the callback on every result, in order. *)
Fixpoint forEach (lastMarkedTime : gmap string Z) (faceDetected : bool)
    (results : list result) : gmap string Z * bool * list call :=
  match results with
  | [] => (lastMarkedTime, faceDetected, [])
  | r :: results' =>
      let '(m1, fd1, cs1) := forEach_callback lastMarkedTime faceDetected r in
      let '(m2, fd2, cs2) := forEach m1 fd1 results' in
      (m2, fd2, cs1 ++ cs2)
  end.

(** Lines 74-98: [let faceDetected = false], the loop, and the final
    [if (!faceDetected) onFaceNotDetected()]. *)
Definition tick (lastMarkedTime : gmap string Z) (results : list result)
    : gmap string Z * list call :=
  let '(m, faceDetected, cs) := forEach lastMarkedTime false results in
  (m, cs ++ (if negb faceDetected then [onFaceNotDetected] else [])).

(** ** The component as a transition system

    One session of [handleVideoPlay]: the interval it registers, the
    detection requests its callback is awaiting, and the calls made so far. *)
Record component : Type := Component {
  videoRef : bool;                    (* videoRef.current is not null *)
  canvasRef : bool;                   (* canvasRef.current is not null *)
  intervalId : bool;                  (* the interval is registered and not cleared *)
  in_flight : nat;                    (* callbacks suspended at [await ...detectAllFaces...] *)
  lastMarkedTime : gmap string Z;
  calls : list call;                  (* calls made so far, oldest first *)
  rejected : nat                      (* callbacks whose promise was rejected *)
}.

Inductive event : Type :=
  | Interval                                 (* the 1000 ms timer fires *)
  | DetectionsResolved (results : list result) (* an awaited request resolves *)
  | DetectionsRejected                       (* an awaited request rejects *)
  | ClearInterval                            (* the function handleVideoPlay returns is called (by nothing in the component) *)
  | RefsDetached.                            (* the elements are unmounted: both refs become null *)

(** The state right after [setInterval] in [handleVideoPlay]: the video is
    playing, so both elements are mounted, and [lastMarkedTime] is [{}]. *)
Definition handleVideoPlay : component :=
  {| videoRef := true; canvasRef := true; intervalId := true; in_flight := 0;
     lastMarkedTime := ∅; calls := []; rejected := 0 |}.

(** The part of the callback before the [await] (line 52): the guard on
    both refs, then the request is issued. Nothing looks at [in_flight]. *)
Definition on_interval (c : component) : component :=
  if intervalId c && (videoRef c && canvasRef c) then
    {| videoRef := videoRef c; canvasRef := canvasRef c; intervalId := intervalId c;
       in_flight := S (in_flight c);
       lastMarkedTime := lastMarkedTime c; calls := calls c; rejected := rejected c |}
  else c.

(** The part after the [await] (lines 58-99) for one suspended callback.
    Line 59 reads [videoRef.current.videoWidth], a TypeError when the ref
    is null; line 63 guards the rest on [canvasRef.current]. No line looks
    at [intervalId]. *)
Definition on_resolved (c : component) (results : list result) : component :=
  match in_flight c with
  | O => c
  | S n =>
      if negb (videoRef c) then
        {| videoRef := videoRef c; canvasRef := canvasRef c; intervalId := intervalId c;
           in_flight := n;
           lastMarkedTime := lastMarkedTime c; calls := calls c; rejected := S (rejected c) |}
      else if canvasRef c then
        let '(m, cs) := tick (lastMarkedTime c) results in
        {| videoRef := videoRef c; canvasRef := canvasRef c; intervalId := intervalId c;
           in_flight := n;
           lastMarkedTime := m; calls := calls c ++ cs; rejected := rejected c |}
      else
        {| videoRef := videoRef c; canvasRef := canvasRef c; intervalId := intervalId c;
           in_flight := n;
           lastMarkedTime := lastMarkedTime c; calls := calls c; rejected := rejected c |}
  end.

(** The awaited promise rejects: there is no [try] around the [await], so
    the async callback's own promise rejects and the rest of it is skipped. *)
Definition on_rejected (c : component) : component :=
  match in_flight c with
  | O => c
  | S n =>
      {| videoRef := videoRef c; canvasRef := canvasRef c; intervalId := intervalId c;
         in_flight := n;
         lastMarkedTime := lastMarkedTime c; calls := calls c; rejected := S (rejected c) |}
  end.

(** [() => clearInterval(intervalId)] *)
Definition clearInterval (c : component) : component :=
  {| videoRef := videoRef c; canvasRef := canvasRef c; intervalId := false;
     in_flight := in_flight c;
     lastMarkedTime := lastMarkedTime c; calls := calls c; rejected := rejected c |}.

Definition detach (c : component) : component :=
  {| videoRef := false; canvasRef := false; intervalId := intervalId c;
     in_flight := in_flight c;
     lastMarkedTime := lastMarkedTime c; calls := calls c; rejected := rejected c |}.

Definition step (c : component) (e : event) : component :=
  match e with
  | Interval => on_interval c
  | DetectionsResolved results => on_resolved c results
  | DetectionsRejected => on_rejected c
  | ClearInterval => clearInterval c
  | RefsDetached => detach c
  end.

Definition run (c : component) (es : list event) : component := fold_left step es c.

(** The session that follows [handleVideoPlay]. *)
Definition session (es : list event) : component := run handleVideoPlay es.

(** ** The clock

    [Date.now()] counts milliseconds since 1970-01-01, so a reading is
    never 0 on a running system. The statements that depend on it take it
    as a hypothesis on the readings of the session. *)
Definition readings (e : event) : list Z :=
  match e with
  | DetectionsResolved results => map now results
  | _ => []
  end.

Definition clock_nonzero (es : list event) : Prop :=
  Forall (λ e, Forall (λ t : Z, t ≠ 0%Z) (readings e)) es.

Definition known (r : result) : Prop := label r ≠ "unknown".

(** How often [onAttendanceMarked(L)] occurs in a list of calls. *)
Fixpoint marked_count (L : string) (cs : list call) : nat :=
  match cs with
  | [] => 0
  | onAttendanceMarked s _ :: cs' =>
      (if String.eqb s L then 1 else 0) + marked_count L cs'
  | _ :: cs' => marked_count L cs'
  end.

(** ** The invariant of a session

    Every stored time is a nonzero clock reading; every earlier
    [onAttendanceMarked(L)] is no later than the stored time of [L]; and
    two such calls for one label are more than the cooldown apart. *)
Definition spaced (cs : list call) : Prop :=
  ∀ (i j : nat) (L : string) (ti tj : Z),
    i < j →
    cs !! i = Some (onAttendanceMarked L ti) →
    cs !! j = Some (onAttendanceMarked L tj) →
    (60000 < tj - ti)%Z.

Record session_inv (m : gmap string Z) (cs : list call) : Prop := SessionInv {
  inv_nonzero : ∀ L t, m !! L = Some t → t ≠ 0%Z;
  inv_latest : ∀ i L t, cs !! i = Some (onAttendanceMarked L t) →
                 ∃ t', m !! L = Some t' ∧ (t ≤ t')%Z;
  inv_spaced : spaced cs
}.

(** The scenario of three detections of "Student1", at a session-relative
    time of 0, 30000 and 61000 ms, the first clock reading being [T0]. *)
Definition scenario (T0 : Z) : list event :=
  [Interval; DetectionsResolved [Result "Student1" T0];
   Interval; DetectionsResolved [Result "Student1" (T0 + 30000)];
   Interval; DetectionsResolved [Result "Student1" (T0 + 61000)]].

(** ** Helpers for statements about one tick *)

(** [studentName !== 'unknown'] as a boolean, for filtering results. *)
Definition is_known (r : result) : bool := negb (String.eqb (label r) "unknown").

(** The results an event delivers to the callback. *)
Definition results_of (e : event) : list result :=
  match e with
  | DetectionsResolved results => results
  | _ => []
  end.

(** The call an iteration makes for [r] when it marks. *)
Definition mark_of (r : result) : call := onAttendanceMarked (label r) (now r).

(** ** Loading the models and starting the camera (lines 15-43) *)

Inductive console : Type :=
  | console_log (msg : string)
  | console_error (msg : string).

(** The four networks of [loadModels], in the order they are awaited. *)
Definition nets : list string :=
  ["tinyFaceDetector"; "faceLandmark68Net"; "faceRecognitionNet"; "ssdMobilenetv1"].

(** [await net.loadFromUri(MODEL_URL)] for each network in turn;
    [loadFromUri n] tells whether the load of [n] resolves. A rejected load
    ends the async function there: nothing after it runs, and nothing
    catches it. Returns the loads requested and whether
    [setModelsLoaded(true)] was reached. *)
Fixpoint loadModels_from (loadFromUri : string → bool) (ns : list string)
    : list string * bool :=
  match ns with
  | [] => ([], true)
  | n :: ns' =>
      if loadFromUri n then
        let '(requested, modelsLoaded) := loadModels_from loadFromUri ns' in
        (n :: requested, modelsLoaded)
      else ([n], false)
  end.

Definition loadModels (loadFromUri : string → bool) : list string * bool :=
  loadModels_from loadFromUri nets.

(** What [getUserMedia({ video: {} })] settles to. *)
Inductive media : Type :=
  | Stream
  | MediaError (err : string).

(** [startVideo]: on a stream, [srcObject] is set if [videoRef.current] is
    still there; a rejection is logged with [console.error(err)]. Returns
    whether [srcObject] was set, and the console output. *)
Definition startVideo (getUserMedia : media) (videoRef_then : bool) : bool * list console :=
  match getUserMedia with
  | Stream => (videoRef_then, [])
  | MediaError err => (false, [console_error err])
  end.

(** The outcome of mounting the component. *)
Record mounted : Type := Mounted {
  requested : list string;       (* model loads requested, in order *)
  modelsLoaded : bool;
  camera_requested : bool;       (* getUserMedia was called *)
  srcObject : bool;              (* the stream was given to the video *)
  console_out : list console
}.

(** The two effects: [loadModels()], then, once [modelsLoaded] is true,
    [if (modelsLoaded && videoRef.current) startVideo()].
    [videoRef_effect] and [videoRef_then] say whether [videoRef.current] is
    set when the second effect runs and when the stream arrives. *)
Definition mount (loadFromUri : string → bool) (videoRef_effect : bool)
    (getUserMedia : media) (videoRef_then : bool) : mounted :=
  let '(requested, modelsLoaded) := loadModels loadFromUri in
  if modelsLoaded && videoRef_effect then
    let '(src, out) := startVideo getUserMedia videoRef_then in
    {| requested := requested; modelsLoaded := modelsLoaded; camera_requested := true;
       srcObject := src; console_out := out |}
  else
    {| requested := requested; modelsLoaded := modelsLoaded; camera_requested := false;
       srcObject := false; console_out := [] |}.

(** ** Loading the labelled images (lines 106-130) *)

(** [labels] of [loadLabeledImages]. *)
Definition labels : list string := ["Student1"; "Student2"].

(** [`/labeled_images/${label}/${i}.jpg`] *)
Definition imagePath (label : string) (i : nat) : string :=
  "/labeled_images/" +:+ label +:+ "/" +:+ pretty i +:+ ".jpg".

Section LoadLabeledImages.
Context {Image Descriptor : Type}.

(** [faceapi.fetchImage(imagePath)]: [None] when the promise rejects. *)
Variable fetchImage : string → option Image.

(** [faceapi.detectSingleFace(img).withFaceLandmarks().withFaceDescriptor()]:
    [None] when it rejects, [Some None] when it resolves to [undefined]
    (no face), [Some (Some d)] when it resolves to a face with
    descriptor [d]. *)
Variable detectSingleFace : Image → option (option Descriptor).

(** One pass through the body of the [for] loop (lines 112-125): the
    descriptors pushed and the console output. The [catch] covers both
    awaits. *)
Definition load_image (label : string) (i : nat) : list Descriptor * list console :=
  let imagePath := imagePath label i in
  let fetching := console_log ("Fetching image from: " +:+ imagePath) in
  let failed := console_error ("Error fetching image for " +:+ label +:+ ":") in
  match fetchImage imagePath with
  | None => ([], [fetching; failed])
  | Some img =>
      match detectSingleFace img with
      | None => ([], [fetching; failed])
      | Some None => ([], [fetching])
      | Some (Some descriptor) => ([descriptor], [fetching])
      end
  end.

(** [for (let i = 1; i <= 2; i++) { ... }] on [descriptions = []]. *)
Definition load_label (label : string) : list Descriptor * list console :=
  foldl (λ '(descriptions, out) i,
           let '(pushed, o) := load_image label i in
           (descriptions ++ pushed, out ++ o))
        ([], []) (seq 1 2).

(** [Promise.all(labels.map(async (label) => ...))]: one
    [LabeledFaceDescriptors(label, descriptions)] per label, in the order
    of [labels]. *)
Definition loadLabeledImages : list (string * list Descriptor) :=
  map (λ label, (label, (load_label label).1)) labels.
End LoadLabeledImages.

(** ** The component across play events (line 134)

    [<video onPlay={handleVideoPlay} />]: every play event runs
    [handleVideoPlay], which makes a [lastMarkedTime] of its own and
    registers an interval of its own. The function it returns is the value
    of the promise of an async event handler; nothing calls it, so no
    interval is ever cleared, and the only teardown is the unmounting of
    the elements. The parent receives the calls of all the intervals. *)

(** What can happen to one interval of the running component. *)
Inductive timer_event : Type :=
  | Fires                                  (* its 1000 ms timer fires *)
  | Resolves (results : list result)       (* one of its awaited requests resolves *)
  | Rejects.                               (* one of its awaited requests rejects *)

Definition to_event (e : timer_event) : event :=
  match e with
  | Fires => Interval
  | Resolves results => DetectionsResolved results
  | Rejects => DetectionsRejected
  end.

Inductive dom_event : Type :=
  | Play                                   (* the video fires a play event *)
  | Unmount                                (* the component is unmounted *)
  | Timer (k : nat) (e : timer_event).     (* [e] happens to the interval of the k-th play *)

Record page : Type := Page {
  elements : bool;                  (* the video and the canvas are mounted *)
  plays : list component;           (* one session per play event, oldest first *)
  received : list (nat * call)      (* the calls the parent received, oldest first,
                                       each with the index of the play it comes from *)
}.

(** The component once mounted, before any play event. *)
Definition FaceRecognition : page :=
  {| elements := true; plays := []; received := [] |}.

(** A play event reaches the handler only while the video is mounted. *)
Definition on_play (p : page) : page :=
  if elements p then
    {| elements := true; plays := plays p ++ [handleVideoPlay]; received := received p |}
  else p.

(** Unmounting sets both refs to null, for every interval alike. *)
Definition on_unmount (p : page) : page :=
  {| elements := false; plays := map detach (plays p); received := received p |}.

Definition on_timer (p : page) (k : nat) (e : timer_event) : page :=
  match plays p !! k with
  | None => p
  | Some c =>
      let c' := step c (to_event e) in
      {| elements := elements p;
         plays := <[k := c']> (plays p);
         received := received p ++ map (pair k) (drop (length (calls c)) (calls c')) |}
  end.

Definition page_step (p : page) (e : dom_event) : page :=
  match e with
  | Play => on_play p
  | Unmount => on_unmount p
  | Timer k e => on_timer p k e
  end.

Definition render (es : list dom_event) : page := fold_left page_step es FaceRecognition.





(** * Proofs *)

Example tick_student1 :
  tick ∅ [Result "unknown" 5; Result "Student1" 6]
  = ({["Student1" := 6%Z]}, [onAttendanceMarked "Student1" 6]).
Proof. reflexivity. Qed.

(** ** Facts about the test and one iteration *)

Lemma should_mark_true (m : gmap string Z) (L : string) (t : Z) :
  should_mark m L t = true ↔
  m !! L = None ∨ m !! L = Some 0%Z ∨ ∃ t0, m !! L = Some t0 ∧ (60000 < t - t0)%Z.
Proof.
  unfold should_mark, js_not, js_elapsed_gt.
  destruct (m !! L) as [t0|]; [|split; [by left|done]].
  rewrite orb_true_iff, Z.eqb_eq, Z.ltb_lt. split.
  - intros [->|H]; [by right; left|]. right; right. by exists t0.
  - intros [H|[H|(t1 & H & Hlt)]]; [done| |]; simplify_eq; auto.
Qed.

Lemma should_mark_false (m : gmap string Z) (L : string) (t : Z) :
  should_mark m L t = false ↔
  ∃ t0, m !! L = Some t0 ∧ t0 ≠ 0%Z ∧ (t - t0 ≤ 60000)%Z.
Proof.
  unfold should_mark, js_not, js_elapsed_gt.
  destruct (m !! L) as [t0|]; [|split; [done|by intros (? & ? & _)]].
  rewrite orb_false_iff, Z.eqb_neq, Z.ltb_ge. split.
  - intros [? ?]. by exists t0.
  - intros (t1 & ? & ? & ?). by simplify_eq.
Qed.

Lemma callback_unknown (m : gmap string Z) (fd : bool) (r : result) :
  label r = "unknown" → forEach_callback m fd r = (m, fd, []).
Proof. intros H. unfold forEach_callback. by rewrite H. Qed.

Lemma callback_known (m : gmap string Z) (fd : bool) (r : result) :
  known r →
  forEach_callback m fd r =
    if should_mark m (label r) (now r)
    then (<[label r := now r]> m, true, [onAttendanceMarked (label r) (now r)])
    else (m, true, []).
Proof.
  intros H. unfold forEach_callback.
  by destruct (String.eqb_spec (label r) "unknown").
Qed.

Lemma known_dec (r : result) : {known r} + {label r = "unknown"}.
Proof.
  unfold known. destruct (String.eqb_spec (label r) "unknown"); auto.
Qed.

(** ** The invariant holds throughout a session *)

Lemma session_inv_init : session_inv ∅ [].
Proof. split; [|intros ???|intros ?????]; by intros. Qed.

Lemma session_inv_callback m fd r m' fd' cs' cs :
  session_inv m cs → now r ≠ 0%Z →
  forEach_callback m fd r = (m', fd', cs') →
  session_inv m' (cs ++ cs').
Proof.
  intros [Hnz Hlast Hsp] Hr Hcb.
  destruct (known_dec r) as [Hk|Hu].
  2: { rewrite callback_unknown in Hcb by done. simplify_eq.
       rewrite app_nil_r. by split. }
  rewrite callback_known in Hcb by done.
  destruct (should_mark m (label r) (now r)) eqn:Hm; simplify_eq.
  2: { rewrite app_nil_r. by split. }
  (* the stored time of this label, if any, is more than 60000 behind *)
  assert (Hold : ∀ t', m !! label r = Some t' → (60000 < now r - t')%Z).
  { intros t' Ht'. apply should_mark_true in Hm as [Hm|[Hm|(t0 & Hm & Hlt)]];
      rewrite Ht' in Hm; [done| |by injection Hm as ->].
    injection Hm as ->. by apply Hnz in Ht'. }
  split.
  - intros L t. destruct (decide (label r = L)) as [<-|Hne].
    + rewrite lookup_insert_eq. naive_solver.
    + rewrite lookup_insert_ne by done. apply Hnz.
  - intros i L t [[_ Hi]|[_ Hi]]%lookup_snoc_Some.
    + destruct (Hlast _ _ _ Hi) as (t' & Ht' & Hle).
      destruct (decide (label r = L)) as [<-|Hne].
      * rewrite lookup_insert_eq. eexists; split; [done|].
        specialize (Hold _ Ht'). lia.
      * rewrite lookup_insert_ne by done. eauto.
    + simplify_eq. rewrite lookup_insert_eq. eexists; split; [done|lia].
  - intros i j L ti tj Hij Hi [[Hj Hj']|[Hj Hj']]%lookup_snoc_Some.
    + rewrite lookup_app_l in Hi by lia. eauto.
    + simplify_eq. rewrite lookup_app_l in Hi by lia.
      destruct (Hlast _ _ _ Hi) as (t' & Ht' & Hle).
      specialize (Hold _ Ht'). lia.
Qed.

Lemma session_inv_forEach results : ∀ m fd m' fd' cs' cs,
  session_inv m cs → Forall (λ t : Z, t ≠ 0%Z) (map now results) →
  forEach m fd results = (m', fd', cs') →
  session_inv m' (cs ++ cs').
Proof.
  induction results as [|r results IH]; intros m fd m' fd' cs' cs Hinv Hclk Hfe; simpl in *.
  - simplify_eq. by rewrite app_nil_r.
  - apply Forall_cons in Hclk as [Hr Hclk].
    destruct (forEach_callback m fd r) as [[m1 fd1] cs1] eqn:Hcb.
    destruct (forEach m1 fd1 results) as [[m2 fd2] cs2] eqn:Hrest.
    simplify_eq. rewrite app_assoc.
    eapply IH; [|done|done]. by eapply session_inv_callback.
Qed.

Lemma session_inv_snoc_other m cs c :
  (∀ L t, c ≠ onAttendanceMarked L t) →
  session_inv m cs → session_inv m (cs ++ [c]).
Proof.
  intros Hc [Hnz Hlast Hsp]. split; [done| |].
  - intros i L t [[_ Hi]|[_ Hi]]%lookup_snoc_Some; [eauto|]. by destruct (Hc L t).
  - intros i j L ti tj Hij Hi [[Hj Hj']|[_ Hj']]%lookup_snoc_Some.
    + rewrite lookup_app_l in Hi by lia. eauto.
    + by destruct (Hc L tj).
Qed.

Lemma session_inv_tick m cs results m' cs' :
  session_inv m cs → Forall (λ t : Z, t ≠ 0%Z) (map now results) →
  tick m results = (m', cs') →
  session_inv m' (cs ++ cs').
Proof.
  intros Hinv Hclk Ht. unfold tick in Ht.
  destruct (forEach m false results) as [[m1 fd1] cs1] eqn:Hfe. simplify_eq.
  pose proof (session_inv_forEach _ _ _ _ _ _ _ Hinv Hclk Hfe) as H1.
  destruct fd1; simpl.
  - by rewrite app_nil_r.
  - rewrite app_assoc. by apply session_inv_snoc_other.
Qed.

Lemma session_inv_step c e :
  session_inv (lastMarkedTime c) (calls c) →
  Forall (λ t : Z, t ≠ 0%Z) (readings e) →
  session_inv (lastMarkedTime (step c e)) (calls (step c e)).
Proof.
  intros Hinv Hclk. destruct e as [|results| | |]; simpl in *.
  - unfold on_interval. by destruct (_ && _).
  - unfold on_resolved. destruct (in_flight c); [done|].
    destruct (videoRef c); simpl; [|done].
    destruct (canvasRef c); [|done].
    destruct (tick (lastMarkedTime c) results) as [m cs] eqn:Ht. simpl.
    by eapply session_inv_tick.
  - unfold on_rejected. by destruct (in_flight c).
  - done.
  - done.
Qed.

Lemma session_inv_run es : ∀ c,
  session_inv (lastMarkedTime c) (calls c) → clock_nonzero es →
  session_inv (lastMarkedTime (run c es)) (calls (run c es)).
Proof.
  unfold run, clock_nonzero.
  induction es as [|e es IH]; intros c Hinv Hclk; [done|].
  apply Forall_cons in Hclk as [He Hes]. simpl.
  apply IH; [|done]. by apply session_inv_step.
Qed.

Lemma session_inv_session es :
  clock_nonzero es →
  session_inv (lastMarkedTime (session es)) (calls (session es)).
Proof. apply session_inv_run, session_inv_init. Qed.

(** ** What one tick calls *)

Lemma forEach_all_unknown results : ∀ m fd,
  Forall (λ r, label r = "unknown") results →
  forEach m fd results = (m, fd, []).
Proof.
  induction results as [|r results IH]; intros m fd Hall; [done|].
  apply Forall_cons in Hall as [Hr Hall]. simpl.
  rewrite callback_unknown by done. by rewrite IH.
Qed.

Lemma forEach_faceDetected results : ∀ m fd m' fd' cs,
  forEach m fd results = (m', fd', cs) →
  fd' = true ↔ fd = true ∨ Exists known results.
Proof.
  induction results as [|r results IH]; intros m fd m' fd' cs Hfe; simpl in *.
  - simplify_eq. rewrite Exists_nil. tauto.
  - destruct (forEach_callback m fd r) as [[m1 fd1] cs1] eqn:Hcb.
    destruct (forEach m1 fd1 results) as [[m2 fd2] cs2] eqn:Hrest.
    simplify_eq. rewrite (IH _ _ _ _ _ Hrest), Exists_cons.
    destruct (known_dec r) as [Hk|Hu].
    + rewrite callback_known in Hcb by done.
      destruct (should_mark _ _ _); simplify_eq; tauto.
    + rewrite callback_unknown in Hcb by done. simplify_eq.
      unfold known at 2. tauto.
Qed.

Lemma forEach_calls_marked results : ∀ m fd m' fd' cs c,
  forEach m fd results = (m', fd', cs) → c ∈ cs →
  ∃ r, r ∈ results ∧ known r ∧ c = onAttendanceMarked (label r) (now r).
Proof.
  induction results as [|r results IH]; intros m fd m' fd' cs c Hfe Hc; simpl in *.
  - simplify_eq. by apply elem_of_nil in Hc.
  - destruct (forEach_callback m fd r) as [[m1 fd1] cs1] eqn:Hcb.
    destruct (forEach m1 fd1 results) as [[m2 fd2] cs2] eqn:Hrest.
    simplify_eq. apply elem_of_app in Hc as [Hc|Hc].
    + exists r. split; [by left|].
      destruct (known_dec r) as [Hk|Hu].
      * rewrite callback_known in Hcb by done.
        destruct (should_mark _ _ _); simplify_eq.
        -- by apply list_elem_of_singleton in Hc.
        -- by apply elem_of_nil in Hc.
      * rewrite callback_unknown in Hcb by done. simplify_eq.
        by apply elem_of_nil in Hc.
    + destruct (IH _ _ _ _ _ _ Hrest Hc) as (r' & ? & ? & ?).
      exists r'. split; [by right|done].
Qed.

Lemma tick_calls_cases m results c :
  c ∈ (tick m results).2 →
  c = onFaceNotDetected ∨ ∃ r, r ∈ results ∧ known r ∧ c = onAttendanceMarked (label r) (now r).
Proof.
  unfold tick. destruct (forEach m false results) as [[m1 fd1] cs1] eqn:Hfe. simpl.
  intros [Hc|Hc]%elem_of_app.
  - right. by eapply forEach_calls_marked.
  - left. destruct fd1; simpl in Hc.
    + by apply elem_of_nil in Hc.
    + by apply list_elem_of_singleton in Hc.
Qed.

Lemma tick_single m L t :
  L ≠ "unknown" →
  tick m [Result L t] =
    if should_mark m L t then (<[L := t]> m, [onAttendanceMarked L t]) else (m, []).
Proof.
  intros HL. unfold tick. cbn [forEach].
  rewrite (callback_known m false (Result L t)) by done. cbn [label now].
  by destruct (should_mark m L t).
Qed.

(** A timer firing whose request resolves before anything else happens,
    with the interval registered and both elements mounted. *)
Lemma completed_tick c results :
  intervalId c = true → videoRef c = true → canvasRef c = true →
  run c [Interval; DetectionsResolved results] =
    {| videoRef := true; canvasRef := true; intervalId := true;
       in_flight := in_flight c;
       lastMarkedTime := (tick (lastMarkedTime c) results).1;
       calls := calls c ++ (tick (lastMarkedTime c) results).2;
       rejected := rejected c |}.
Proof.
  intros Hi Hv Hc. unfold run. cbn [fold_left step].
  unfold on_interval. rewrite Hi, Hv, Hc. cbn [andb].
  unfold on_resolved. cbn [in_flight videoRef canvasRef negb lastMarkedTime
    calls rejected intervalId].
  by destruct (tick (lastMarkedTime c) results).
Qed.

Lemma run_app c es1 es2 : run c (es1 ++ es2) = run (run c es1) es2.
Proof. apply fold_left_app. Qed.

(** ** The debounce *)

(** Within one [handleVideoPlay] call whose clock readings are not 0, two
    [onAttendanceMarked(L)] calls for the same label are more than
    60000 ms apart, the later call's reading exceeding the earlier one's. *)
Lemma one_session_marks_cooldown_apart (es : list event) (i j : nat) (L : string) (ti tj : Z) :
  clock_nonzero es →
  i < j →
  calls (session es) !! i = Some (onAttendanceMarked L ti) →
  calls (session es) !! j = Some (onAttendanceMarked L tj) →
  (60000 < tj - ti)%Z.
Proof.
  intros Hclk. apply (inv_spaced _ _ (session_inv_session es Hclk)).
Qed.

(** C2. One iteration on a result whose label is not "unknown", in a store
    reached by a session whose clock readings are not 0: if the label has
    no entry, or [now] minus its entry is strictly greater than 60000, the
    iteration stores [now] for the label and calls [onAttendanceMarked];
    otherwise it leaves the store as it is and makes no call. *)
Theorem callback_marks_iff_cooldown_over (es : list event) (fd : bool) (r : result) :
  clock_nonzero es →
  known r →
  let m := lastMarkedTime (session es) in
  let over := m !! label r = None ∨ ∃ t, m !! label r = Some t ∧ (60000 < now r - t)%Z in
  (over → forEach_callback m fd r
          = (<[label r := now r]> m, true, [onAttendanceMarked (label r) (now r)]))
  ∧ (¬ over → forEach_callback m fd r = (m, true, [])).
Proof.
  intros Hclk Hk m over.
  pose proof (inv_nonzero _ _ (session_inv_session es Hclk)) as Hnz. fold m in Hnz.
  rewrite callback_known by done.
  destruct (should_mark m (label r) (now r)) eqn:Hm.
  - split; [done|]. intros Hno. destruct Hno.
    apply should_mark_true in Hm as [Hm|[Hm|Hm]]; [by left| |by right].
    by apply Hnz in Hm.
  - split; [|done]. intros Hover.
    apply should_mark_false in Hm as (t0 & Ht0 & _ & Hle).
    destruct Hover as [Hn|(t & Ht & Hlt)]; [congruence|].
    rewrite Ht0 in Ht. injection Ht as ->. lia.
Qed.

Lemma callback_marks_iff_cooldown_over_witness :
  clock_nonzero (scenario 1700000000000) ∧
  known (Result "Student1" 1700000091000) ∧
  forEach_callback (lastMarkedTime (session (scenario 1700000000000))) false
    (Result "Student1" 1700000091000)
  = (lastMarkedTime (session (scenario 1700000000000)), true, []).
Proof.
  assert (Hclk : clock_nonzero (scenario 1700000000000)).
  { unfold clock_nonzero, scenario. repeat constructor; simpl; lia. }
  assert (Hk : known (Result "Student1" 1700000091000)) by (unfold known; simpl; congruence).
  split; [exact Hclk|]. split; [exact Hk|].
  apply (callback_marks_iff_cooldown_over (scenario 1700000000000) false
           (Result "Student1" 1700000091000) Hclk Hk).
  intros [Hn|(t & Ht & Hlt)].
  - vm_compute in Hn. discriminate Hn.
  - vm_compute in Ht. injection Ht as <-. simpl in Hlt. lia.
Defined.

(** C6. No tick of any session calls [onFaceDetected]: the prop is taken
    by the component and never invoked. *)
Theorem onFaceDetected_never_called (es : list event) (studentName : string) :
  onFaceDetected studentName ∉ calls (session es).
Proof.
  unfold session.
  assert (H0 : onFaceDetected studentName ∉ calls handleVideoPlay)
    by (intros H; by apply elem_of_nil in H).
  revert H0. generalize handleVideoPlay.
  induction es as [|e es IH]; intros c Hc; [done|].
  unfold run in *. simpl. apply IH.
  destruct e as [|results| | |]; simpl; try done.
  - unfold on_interval. by destruct (_ && _).
  - unfold on_resolved. destruct (in_flight c); [done|].
    destruct (videoRef c); simpl; [|done].
    destruct (canvasRef c); [|done].
    pose proof (tick_calls_cases (lastMarkedTime c) results (onFaceDetected studentName)) as Ht.
    destruct (tick (lastMarkedTime c) results) as [m cs]. simpl in *.
    intros [H|H]%elem_of_app; [done|].
    destruct (Ht H) as [?|(? & _ & _ & ?)]; done.
  - unfold on_rejected. by destruct (in_flight c).
Qed.

(** C7. "Student1" detected by three ticks, at 0, 30000 and 61000 ms after
    the first of them (whose clock reading [T0] is not 0), from an empty
    store: exactly two [onAttendanceMarked("Student1")] calls, by the first
    and by the third tick, and none by the second. *)
Theorem scenario_two_marks (T0 : Z) :
  T0 ≠ 0%Z →
  calls (session (scenario T0)) =
    [onAttendanceMarked "Student1" T0; onAttendanceMarked "Student1" (T0 + 61000)].
Proof.
  intros HT0. unfold session, scenario.
  change (run handleVideoPlay ?l) with
    (run handleVideoPlay
       ([Interval; DetectionsResolved [Result "Student1" T0]] ++
        [Interval; DetectionsResolved [Result "Student1" (T0 + 30000)]] ++
        [Interval; DetectionsResolved [Result "Student1" (T0 + 61000)]])).
  rewrite !run_app.
  rewrite (completed_tick handleVideoPlay) by reflexivity.
  rewrite tick_single by done.
  replace (should_mark (lastMarkedTime handleVideoPlay) "Student1" T0) with true
    by (symmetry; apply should_mark_true; by left).
  cbn [fst snd]. rewrite (completed_tick (Component _ _ _ _ _ _ _)) by reflexivity. cbn [lastMarkedTime calls].
  rewrite tick_single by done.
  replace (should_mark _ "Student1" (T0 + 30000)) with false.
  2: { symmetry. apply should_mark_false. exists T0.
       rewrite lookup_insert_eq. split; [done|split; [done|lia]]. }
  cbn [fst snd]. rewrite (completed_tick (Component _ _ _ _ _ _ _)) by reflexivity. cbn [lastMarkedTime calls].
  rewrite tick_single by done.
  replace (should_mark _ "Student1" (T0 + 61000)) with true.
  2: { symmetry. apply should_mark_true. right; right. exists T0.
       rewrite lookup_insert_eq. split; [done|lia]. }
  done.
Qed.

Lemma scenario_two_marks_witness :
  1700000000000%Z ≠ 0%Z ∧
  calls (session (scenario 1700000000000)) =
    [onAttendanceMarked "Student1" 1700000000000;
     onAttendanceMarked "Student1" (1700000000000 + 61000)].
Proof.
  split; [lia|]. apply (scenario_two_marks 1700000000000). lia.
Defined.

(** The one clock reading the scenario cannot start from: a stored 0 is
    falsy, so [!lastMarkedTime[studentName]] holds again at the second tick. *)
Example scenario_at_epoch :
  calls (session (scenario 0)) =
    [onAttendanceMarked "Student1" 0; onAttendanceMarked "Student1" 30000].
Proof. reflexivity. Qed.

(** ** Within one tick *)

Lemma marked_count_app L cs1 cs2 :
  marked_count L (cs1 ++ cs2) = marked_count L cs1 + marked_count L cs2.
Proof.
  induction cs1 as [|[s t| |s] cs1 IH]; simpl; [done| |done|done].
  rewrite IH. lia.
Qed.

(** Once [L] has a nonzero entry that no later reading of the loop exceeds
    by more than 60000, the rest of the loop never marks [L]. *)
Lemma forEach_suppressed L t0 results : ∀ m fd,
  m !! L = Some t0 → t0 ≠ 0%Z →
  (∀ r, r ∈ results → (now r - t0 ≤ 60000)%Z) →
  marked_count L (forEach m fd results).2 = 0
  ∧ (forEach m fd results).1.1 !! L = Some t0.
Proof.
  induction results as [|r results IH]; intros m fd Hm Ht0 Hrec; [done|].
  cbn [forEach].
  destruct (forEach_callback m fd r) as [[m1 fd1] cs1] eqn:Hcb.
  assert (Hstep : m1 !! L = Some t0 ∧ marked_count L cs1 = 0).
  { destruct (known_dec r) as [Hk|Hu].
    2: { rewrite callback_unknown in Hcb by done. by simplify_eq. }
    rewrite callback_known in Hcb by done.
    destruct (should_mark m (label r) (now r)) eqn:Hsm; simplify_eq; [|done].
    destruct (decide (label r = L)) as [<-|Hne].
    - apply should_mark_true in Hsm as [Hsm|[Hsm|(t1 & Hsm & Hlt)]];
        rewrite Hm in Hsm; [done|by injection Hsm|].
      injection Hsm as <-. assert (now r - t0 ≤ 60000)%Z by (apply Hrec; by left). lia.
    - rewrite lookup_insert_ne by done. split; [done|]. simpl.
      by destruct (String.eqb_spec (label r) L). }
  destruct Hstep as [Hm1 Hcs1].
  destruct (IH m1 fd1 Hm1 Ht0) as [IH1 IH2]; [intros r' Hr'; apply Hrec; by right|].
  destruct (forEach m1 fd1 results) as [[m2 fd2] cs2]. simpl in *.
  rewrite marked_count_app. split; [lia|done].
Qed.

Lemma forEach_marks_at_most_once L results : ∀ m fd,
  Forall (λ r, now r ≠ 0%Z) results →
  (∀ r1 r2, r1 ∈ results → r2 ∈ results → (now r2 - now r1 ≤ 60000)%Z) →
  marked_count L (forEach m fd results).2 ≤ 1.
Proof.
  induction results as [|r results IH]; intros m fd Hnz Hspan; [simpl; lia|].
  apply Forall_cons in Hnz as [Hr Hnz]. cbn [forEach].
  assert (Hspan' : ∀ r1 r2, r1 ∈ results → r2 ∈ results → (now r2 - now r1 ≤ 60000)%Z).
  { intros r1 r2 H1 H2. apply Hspan; by right. }
  destruct (forEach_callback m fd r) as [[m1 fd1] cs1] eqn:Hcb.
  specialize (IH m1 fd1 Hnz Hspan').
  assert (Hcase : marked_count L cs1 = 0 ∨
                  (cs1 = [onAttendanceMarked L (now r)] ∧ m1 !! L = Some (now r))).
  { destruct (known_dec r) as [Hk|Hu].
    2: { rewrite callback_unknown in Hcb by done. simplify_eq. by left. }
    rewrite callback_known in Hcb by done.
    destruct (should_mark m (label r) (now r)); simplify_eq; [|by left].
    destruct (decide (label r = L)) as [<-|Hne].
    - right. by rewrite lookup_insert_eq.
    - left. simpl. by destruct (String.eqb_spec (label r) L). }
  destruct Hcase as [H0|[-> Hm1]].
  - destruct (forEach m1 fd1 results) as [[m2 fd2] cs2]. simpl in *.
    rewrite marked_count_app. lia.
  - destruct (forEach_suppressed L (now r) results m1 fd1 Hm1 Hr) as [Hsup _].
    { intros r' Hr'. apply Hspan; [by left|by right]. }
    destruct (forEach m1 fd1 results) as [[m2 fd2] cs2]. simpl in *.
    rewrite String.eqb_refl. lia.
Qed.

(** C9. In one tick [onAttendanceMarked(L)] is called at most once, however
    often [L] occurs among the tick's results and whatever the store holds,
    when the clock readings of the tick's iterations are not 0 and no more
    than 60000 ms apart (as when they all equal one [now]): the first call
    stores its reading, and every later occurrence fails the strict test. *)
Theorem tick_marks_label_at_most_once (m : gmap string Z) (results : list result) (L : string) :
  Forall (λ r, now r ≠ 0%Z) results →
  (∀ r1 r2, r1 ∈ results → r2 ∈ results → (now r2 - now r1 ≤ 60000)%Z) →
  marked_count L (tick m results).2 ≤ 1.
Proof.
  intros Hnz Hspan. unfold tick.
  pose proof (forEach_marks_at_most_once L results m false Hnz Hspan) as H.
  destruct (forEach m false results) as [[m1 fd1] cs1]. simpl in *.
  rewrite marked_count_app. by destruct fd1; simpl; lia.
Qed.

Lemma tick_marks_label_at_most_once_witness :
  marked_count "Student1"
    (tick ∅ [Result "Student1" 1700000000000; Result "unknown" 1700000000000;
             Result "Student1" 1700000000001]).2 ≤ 1.
Proof.
  apply (tick_marks_label_at_most_once ∅
           [Result "Student1" 1700000000000; Result "unknown" 1700000000000;
            Result "Student1" 1700000000001] "Student1").
  - repeat constructor; simpl; lia.
  - intros r1 r2 H1 H2.
    repeat (apply elem_of_cons in H1 as [->|H1]); [| | |by apply elem_of_nil in H1];
    repeat (apply elem_of_cons in H2 as [->|H2]); try (by apply elem_of_nil in H2);
    simpl; lia.
Defined.

(** Results that are unknown or still inside their cooldown change nothing
    and call nothing. *)
Lemma forEach_within_cooldown results : ∀ (m : gmap string Z) fd,
  (∀ L t, m !! L = Some t → t ≠ 0%Z) →
  (∀ r, r ∈ results → known r →
        ∃ t, m !! label r = Some t ∧ (now r - t ≤ 60000)%Z) →
  ∃ fd', forEach m fd results = (m, fd', []).
Proof.
  induction results as [|r results IH]; intros m fd Hnz Hin; [by eexists|].
  cbn [forEach].
  assert (∃ fd1, forEach_callback m fd r = (m, fd1, [])) as [fd1 ->].
  { destruct (known_dec r) as [Hk|Hu].
    2: { rewrite callback_unknown by done. by eexists. }
    rewrite callback_known by done.
    destruct (Hin r) as (t & Ht & Hle); [by left|done|].
    replace (should_mark m (label r) (now r)) with false; [by eexists|].
    symmetry. apply should_mark_false. exists t. eauto. }
  destruct (IH m fd1 Hnz) as [fd2 ->]; [intros r' Hr'; apply Hin; by right|].
  by eexists.
Qed.

(** C10. A tick can call nothing at all: in a store reached by a session
    whose clock readings are not 0, when the tick has a result with a label
    other than "unknown" and every such result is still within 60000 ms of
    its label's entry, the tick calls neither [onAttendanceMarked] nor
    [onFaceNotDetected], and the store is unchanged. *)
Theorem tick_within_cooldown_is_silent (es : list event) (results : list result) :
  clock_nonzero es →
  let m := lastMarkedTime (session es) in
  Exists known results →
  (∀ r, r ∈ results → known r →
        ∃ t, m !! label r = Some t ∧ (now r - t ≤ 60000)%Z) →
  tick m results = (m, []).
Proof.
  intros Hclk m Hex Hin.
  pose proof (inv_nonzero _ _ (session_inv_session es Hclk)) as Hnz. fold m in Hnz.
  destruct (forEach_within_cooldown results m false Hnz Hin) as [fd' Hfe].
  unfold tick. rewrite Hfe.
  assert (fd' = true) as ->; [|done].
  apply (forEach_faceDetected _ _ _ _ _ _ Hfe). by right.
Qed.

Lemma tick_within_cooldown_is_silent_witness :
  tick (lastMarkedTime (session (scenario 1700000000000)))
       [Result "unknown" 1700000062000; Result "Student1" 1700000062000]
  = (lastMarkedTime (session (scenario 1700000000000)), []).
Proof.
  apply (tick_within_cooldown_is_silent (scenario 1700000000000)
           [Result "unknown" 1700000062000; Result "Student1" 1700000062000]).
  - unfold clock_nonzero, scenario. repeat constructor; simpl; lia.
  - right. left. unfold known. simpl. congruence.
  - intros r Hr Hk.
    repeat (apply elem_of_cons in Hr as [->|Hr]); [| |by apply elem_of_nil in Hr].
    + by destruct Hk.
    + exists 1700000061000%Z. split; [reflexivity|simpl; lia].
Defined.

(** ** Failure, overlap and teardown *)

(** C4, as stated, fails: a tick whose request rejects is not a tick with
    zero detections (that one calls [onFaceNotDetected]), and the rejection
    leaves the callback as a rejected promise. *)
Lemma rejected_tick_is_not_an_empty_tick :
  calls (session [Interval; DetectionsRejected])
    ≠ calls (session [Interval; DetectionsResolved []])
  ∧ rejected (session [Interval; DetectionsRejected]) ≠ 0.
Proof. split; intros H; vm_compute in H; discriminate H. Qed.

(** C4, amended. A tick whose detection request rejects is not caught: its
    callback ends as a rejected promise, the rest of it is skipped (no
    call, not even [onFaceNotDetected], and the store is unchanged); the
    interval stays registered, and the next firing runs a whole tick. *)
Theorem rejected_tick_skipped_loop_continues (c : component) (results : list result) :
  0 < in_flight c →
  intervalId c = true → videoRef c = true → canvasRef c = true →
  let c' := step c DetectionsRejected in
  calls c' = calls c
  ∧ lastMarkedTime c' = lastMarkedTime c
  ∧ rejected c' = S (rejected c)
  ∧ intervalId c' = true
  ∧ calls (run c' [Interval; DetectionsResolved results])
    = calls c ++ (tick (lastMarkedTime c) results).2.
Proof.
  intros Hin Hi Hv Hc c'. subst c'. cbn [step]. unfold on_rejected.
  destruct (in_flight c) as [|n] eqn:Hn; [lia|].
  rewrite completed_tick by done.
  cbn [calls lastMarkedTime rejected intervalId]. by repeat split.
Qed.

Lemma rejected_tick_skipped_loop_continues_witness :
  calls (run (step (session [Interval]) DetectionsRejected)
             [Interval; DetectionsResolved [Result "Student1" 1700000000000]])
  = calls (session [Interval])
    ++ (tick (lastMarkedTime (session [Interval])) [Result "Student1" 1700000000000]).2.
Proof.
  apply (rejected_tick_skipped_loop_continues (session [Interval])
           [Result "Student1" 1700000000000]).
  - simpl. lia.
  - reflexivity.
  - reflexivity.
  - reflexivity.
Defined.

(** The function [handleVideoPlay] returns only calls [clearInterval]: were
    it called with a request in flight, the callbacks would still fire when
    the request resolves. Nothing in the component calls it. *)
Example returned_function_only_clears_the_timer :
  let cancelled := session [Interval; ClearInterval] in
  intervalId cancelled = false
  ∧ in_flight cancelled = 1
  ∧ calls cancelled = []
  ∧ calls (step cancelled (DetectionsResolved [Result "Student1" 1700000000000]))
    = [onAttendanceMarked "Student1" 1700000000000]
  ∧ calls (step cancelled (DetectionsResolved [])) = [onFaceNotDetected]
  ∧ intervalId (session [Interval; RefsDetached]) = true.
Proof. repeat split; reflexivity. Qed.

(** What [clearInterval] does give: no later firing starts a tick. *)
Lemma no_tick_starts_after_clearInterval (c : component) :
  step (step c ClearInterval) Interval = step c ClearInterval.
Proof. reflexivity. Qed.

(** Once the elements are unmounted no callback fires any more, whether or
    not the interval was cleared: a new tick fails the guard of line 52 and
    a resumed one throws on [videoRef.current.videoWidth]. *)
Lemma no_calls_once_detached (es : list event) : ∀ c,
  videoRef c = false → calls (run c es) = calls c.
Proof.
  unfold run. induction es as [|e es IH]; intros c Hv; [done|]. simpl.
  assert (videoRef (step c e) = false ∧ calls (step c e) = calls c) as [Hv' <-].
  { destruct e; simpl; try done.
    - unfold on_interval. by destruct (_ && _).
    - unfold on_resolved. destruct (in_flight c); [done|]. by rewrite Hv.
    - unfold on_rejected. by destruct (in_flight c). }
  by apply IH.
Qed.

(** C8, as stated, fails: two firings with no completion in between leave
    two detection requests in flight. *)
Lemma two_requests_in_flight :
  ¬ (in_flight (session [Interval; Interval]) ≤ 1).
Proof. vm_compute. lia. Qed.

(** C8, amended. Every firing of the timer with the interval registered and
    both elements mounted issues a detection request, however many are
    still in flight: an overlapping tick is neither skipped nor queued. *)
Theorem every_firing_issues_a_request (c : component) :
  intervalId c = true → videoRef c = true → canvasRef c = true →
  in_flight (step c Interval) = S (in_flight c).
Proof.
  intros Hi Hv Hc. simpl. unfold on_interval. by rewrite Hi, Hv, Hc.
Qed.

Lemma every_firing_issues_a_request_witness :
  in_flight (step (session [Interval]) Interval) = S (in_flight (session [Interval])).
Proof.
  apply (every_firing_issues_a_request (session [Interval])); reflexivity.
Defined.

(** * Further properties of the polling loop *)

(** ** Invariants of a tick and of a run, in general *)

Lemma forEach_cons m fd r results :
  forEach m fd (r :: results) =
    let st := forEach_callback m fd r in
    let st' := forEach st.1.1 st.1.2 results in
    (st'.1.1, st'.1.2, st.2 ++ st'.2).
Proof.
  cbn [forEach]. destruct (forEach_callback m fd r) as [[m1 fd1] cs1].
  cbn [fst snd]. by destruct (forEach m1 fd1 results) as [[m2 fd2] cs2].
Qed.

(** A property of the store and the calls so far that every iteration and
    the final [onFaceNotDetected] keep is kept by a tick. *)
Lemma tick_preserves (P : gmap string Z → list call → Prop) (R : result → Prop) :
  (∀ m cs fd r, R r → P m cs →
     P (forEach_callback m fd r).1.1 (cs ++ (forEach_callback m fd r).2)) →
  (∀ m cs, P m cs → P m (cs ++ [onFaceNotDetected])) →
  ∀ m cs results, Forall R results → P m cs →
    P (tick m results).1 (cs ++ (tick m results).2).
Proof.
  intros Hcb Hnd m cs results HR HP.
  assert (Hfe : ∀ results m fd cs, Forall R results → P m cs →
            P (forEach m fd results).1.1 (cs ++ (forEach m fd results).2)).
  { clear results m cs HR HP.
    induction results as [|r results IH]; intros m fd cs HR HP.
    - simpl. by rewrite app_nil_r.
    - apply Forall_cons in HR as [Hr HR]. rewrite forEach_cons. cbn [fst snd].
      rewrite app_assoc. apply IH; [done|]. by apply Hcb. }
  specialize (Hfe results m false cs HR HP). unfold tick.
  destruct (forEach m false results) as [[m1 fd1] cs1]. cbn [fst snd] in *.
  destruct fd1; cbn [negb].
  - by rewrite app_nil_r.
  - rewrite app_assoc. by apply Hnd.
Qed.

(** What one event can do to the store and the calls: nothing, or one tick. *)
Lemma step_cases c e :
  (lastMarkedTime (step c e) = lastMarkedTime c ∧ calls (step c e) = calls c)
  ∨ ∃ results, e = DetectionsResolved results
      ∧ videoRef c = true ∧ canvasRef c = true ∧ 0 < in_flight c
      ∧ lastMarkedTime (step c e) = (tick (lastMarkedTime c) results).1
      ∧ calls (step c e) = calls c ++ (tick (lastMarkedTime c) results).2.
Proof.
  destruct e as [|results| | |]; cbn [step].
  - left. unfold on_interval. by destruct (_ && _).
  - unfold on_resolved. destruct (in_flight c) as [|n] eqn:Hn; [by left|].
    destruct (videoRef c) eqn:Hv; cbn [negb]; [|by left].
    destruct (canvasRef c) eqn:Hc; [|by left].
    right. exists results.
    destruct (tick (lastMarkedTime c) results) as [m cs].
    cbn [lastMarkedTime calls fst snd].
    repeat split; try done. lia.
  - left. unfold on_rejected. by destruct (in_flight c).
  - by left.
  - by left.
Qed.

Lemma run_preserves (P : gmap string Z → list call → Prop) (R : result → Prop) :
  (∀ m cs results, Forall R results → P m cs →
     P (tick m results).1 (cs ++ (tick m results).2)) →
  ∀ es c, Forall (λ e, Forall R (results_of e)) es →
    P (lastMarkedTime c) (calls c) →
    P (lastMarkedTime (run c es)) (calls (run c es)).
Proof.
  intros Htick. unfold run.
  induction es as [|e es IH]; intros c HR HP; [done|].
  apply Forall_cons in HR as [He HR]. cbn [fold_left]. apply IH; [done|].
  destruct (step_cases c e) as [[-> ->]|(results & -> & _ & _ & _ & -> & ->)]; [done|].
  by apply Htick.
Qed.

Lemma Forall_trivial_results (es : list event) :
  Forall (λ e, Forall (λ _ : result, True) (results_of e)) es.
Proof. apply Forall_forall. intros e _. by apply Forall_forall. Qed.

Lemma callback_cases m fd r :
  (label r = "unknown" ∧ forEach_callback m fd r = (m, fd, []))
  ∨ (known r ∧ should_mark m (label r) (now r) = false
       ∧ forEach_callback m fd r = (m, true, []))
  ∨ (known r ∧ should_mark m (label r) (now r) = true
       ∧ forEach_callback m fd r = (<[label r := now r]> m, true, [mark_of r])).
Proof.
  destruct (known_dec r) as [Hk|Hu].
  - right. rewrite callback_known by done.
    destruct (should_mark m (label r) (now r)); [right|left]; done.
  - left. by rewrite callback_unknown.
Qed.

(** ** What is never marked, and what every mark stands for *)

(** X1. The label "unknown" is never reported and never stored: no session
    calls [onAttendanceMarked("unknown")], and [lastMarkedTime] never has
    an entry for "unknown". *)
Theorem unknown_never_marked (es : list event) (t : Z) :
  (onAttendanceMarked "unknown" t ∉ calls (session es))
  ∧ lastMarkedTime (session es) !! "unknown" = None.
Proof.
  pose (P := λ (m : gmap string Z) (cs : list call),
          (∀ t, onAttendanceMarked "unknown" t ∉ cs) ∧ m !! "unknown" = None).
  assert (HP : P (lastMarkedTime (session es)) (calls (session es))).
  { apply (run_preserves P (λ _, True)); [|apply Forall_trivial_results|].
    - apply tick_preserves.
      + intros m cs fd r _ [Hcs Hm].
        destruct (callback_cases m fd r) as [[_ ->]|[(_ & _ & ->)|(Hk & _ & ->)]];
          cbn [fst snd]; rewrite ?app_nil_r; [done|done|].
        split.
        * intros t' [H|H]%elem_of_app; [by apply (Hcs t')|].
          apply list_elem_of_singleton in H. unfold mark_of in H.
          injection H as H _. by destruct Hk.
        * by rewrite lookup_insert_ne.
      + intros m cs [Hcs Hm]. split; [|done].
        intros t' [H|H]%elem_of_app; [by apply (Hcs t')|].
        by apply list_elem_of_singleton in H.
    - split; [|done]. intros t' H. by apply elem_of_nil in H. }
  destruct HP as [H1 H2]. split; [apply H1|apply H2].
Qed.

(** X2. Every [onAttendanceMarked(L)] of a session stands for a detection:
    some resolved request of the session delivered a result with label [L],
    other than "unknown", and the call carries the clock reading of that
    result's iteration. *)
Theorem marked_only_when_detected (es : list event) (L : string) (t : Z) :
  onAttendanceMarked L t ∈ calls (session es) →
  ∃ results r, DetectionsResolved results ∈ es ∧ r ∈ results
    ∧ known r ∧ label r = L ∧ now r = t.
Proof.
  unfold session.
  assert (H : ∀ es c, onAttendanceMarked L t ∈ calls (run c es) →
            onAttendanceMarked L t ∈ calls c
            ∨ ∃ results r, DetectionsResolved results ∈ es ∧ r ∈ results
                ∧ known r ∧ label r = L ∧ now r = t).
  { clear es. unfold run. induction es as [|e es IH]; intros c Hin; [by left|].
    cbn [fold_left] in Hin. destruct (IH _ Hin) as [Hc|(results & r & He & Hr)].
    2: { right. exists results, r. split; [by right|done]. }
    destruct (step_cases c e) as [[_ Hcs]|(results & -> & _ & _ & _ & _ & Hcs)];
      rewrite Hcs in Hc; [by left|].
    apply elem_of_app in Hc as [Hc|Hc]; [by left|]. right.
    destruct (tick_calls_cases _ _ _ Hc) as [?|(r & Hr & Hk & Heq)]; [done|].
    injection Heq as -> ->. exists results, r. split; [by left|done]. }
  intros Hin. destruct (H es handleVideoPlay Hin) as [Hc|Hc]; [|done].
  by apply elem_of_nil in Hc.
Qed.

Lemma marked_only_when_detected_witness :
  ∃ results r,
    DetectionsResolved results ∈ scenario 1700000000000 ∧ r ∈ results
    ∧ known r ∧ label r = "Student1" ∧ now r = 1700000061000%Z.
Proof.
  apply (marked_only_when_detected (scenario 1700000000000)).
  apply list_elem_of_lookup. exists 1. reflexivity.
Defined.

(** X3. The store and the calls agree throughout a session: every stored
    time is the time of an [onAttendanceMarked] call made for that label,
    and every label that was marked has an entry. *)
Theorem store_agrees_with_calls (es : list event) (L : string) (t : Z) :
  (lastMarkedTime (session es) !! L = Some t →
     onAttendanceMarked L t ∈ calls (session es))
  ∧ (onAttendanceMarked L t ∈ calls (session es) →
     is_Some (lastMarkedTime (session es) !! L)).
Proof.
  pose (P := λ (m : gmap string Z) (cs : list call),
          (∀ L t, m !! L = Some t → onAttendanceMarked L t ∈ cs)
          ∧ (∀ L t, onAttendanceMarked L t ∈ cs → is_Some (m !! L))).
  assert (HP : P (lastMarkedTime (session es)) (calls (session es))).
  { apply (run_preserves P (λ _, True)); [|apply Forall_trivial_results|].
    - apply tick_preserves.
      + intros m cs fd r _ [H1 H2].
        destruct (callback_cases m fd r) as [[_ ->]|[(_ & _ & ->)|(Hk & _ & ->)]];
          cbn [fst snd]; rewrite ?app_nil_r; [done|done|].
        split.
        * intros L' t'. destruct (decide (label r = L')) as [<-|Hne].
          -- rewrite lookup_insert_eq. intros [= <-].
             apply elem_of_app. right. by apply list_elem_of_singleton.
          -- rewrite lookup_insert_ne by done. intros H.
             apply elem_of_app. left. by apply H1.
        * intros L' t' [H|H]%elem_of_app.
          -- destruct (decide (label r = L')) as [<-|Hne].
             ++ rewrite lookup_insert_eq. by eexists.
             ++ rewrite lookup_insert_ne by done. by eapply H2.
          -- apply list_elem_of_singleton in H. injection H as <- <-.
             rewrite lookup_insert_eq. by eexists.
      + intros m cs [H1 H2]. split.
        * intros L' t' H. apply elem_of_app. left. by apply H1.
        * intros L' t' [H|H]%elem_of_app; [by eapply H2|].
          by apply list_elem_of_singleton in H.
    - split; [done|]. intros L' t' H. by apply elem_of_nil in H. }
  destruct HP as [H1 H2]. split; [apply H1|apply H2].
Qed.

Lemma store_agrees_with_calls_witness :
  onAttendanceMarked "Student1" 1700000061000
    ∈ calls (session (scenario 1700000000000)).
Proof.
  apply (store_agrees_with_calls (scenario 1700000000000) "Student1" 1700000061000).
  reflexivity.
Defined.

(** ** One tick, label by label *)

Lemma is_known_true r : is_known r = true ↔ known r.
Proof.
  unfold is_known, known. destruct (String.eqb_spec (label r) "unknown"); simpl; split;
    congruence.
Qed.

Lemma forEach_filter_known results : ∀ m fd,
  forEach m fd (filter (λ r, is_known r = true) results) = forEach m fd results.
Proof.
  induction results as [|r results IH]; intros m fd; [done|].
  rewrite filter_cons. destruct (decide (is_known r = true)) as [Hk|Hk].
  - rewrite !forEach_cons. cbn zeta. by rewrite IH.
  - rewrite IH, forEach_cons.
    assert (label r = "unknown") as Hu.
    { destruct (known_dec r) as [?%is_known_true|?]; done. }
    rewrite callback_unknown by done. cbn [fst snd app].
    by destruct (forEach m fd results) as [[??]?].
Qed.

(** X4. Results labelled "unknown" take no part in a tick: the store and
    the calls are the same as for the tick's other results alone. *)
Theorem tick_ignores_unknown (m : gmap string Z) (results : list result) :
  tick m results = tick m (filter (λ r, is_known r = true) results).
Proof. unfold tick. by rewrite forEach_filter_known. Qed.

Lemma callback_frame m fd r L :
  (known r → label r ≠ L) →
  (forEach_callback m fd r).1.1 !! L = m !! L
  ∧ marked_count L (forEach_callback m fd r).2 = 0.
Proof.
  intros Hne.
  destruct (callback_cases m fd r) as [[_ ->]|[(_ & _ & ->)|(Hk & _ & ->)]];
    cbn [fst snd]; [done|done|].
  specialize (Hne Hk). rewrite lookup_insert_ne by done. split; [done|].
  simpl. by destruct (String.eqb_spec (label r) L).
Qed.

Lemma forEach_frame L results : ∀ m fd,
  (∀ r, r ∈ results → known r → label r ≠ L) →
  (forEach m fd results).1.1 !! L = m !! L
  ∧ marked_count L (forEach m fd results).2 = 0.
Proof.
  induction results as [|r results IH]; intros m fd Hne; [done|].
  rewrite forEach_cons. cbn [fst snd].
  destruct (callback_frame m fd r L) as [H1 H2]; [intros ?; apply Hne; [by left|done]|].
  destruct (IH (forEach_callback m fd r).1.1 (forEach_callback m fd r).1.2) as [H3 H4];
    [intros r' Hr' ?; apply Hne; [by right|done]|].
  rewrite marked_count_app, H3, H1. split; [done|lia].
Qed.

Lemma tick_store m results : (tick m results).1 = (forEach m false results).1.1.
Proof. unfold tick. by destruct (forEach m false results) as [[??]?]. Qed.

Lemma tick_marked_count L m results :
  marked_count L (tick m results).2 = marked_count L (forEach m false results).2.
Proof.
  unfold tick. destruct (forEach m false results) as [[? fd] ?]. cbn [snd].
  rewrite marked_count_app. destruct fd; simpl; lia.
Qed.

(** X5. A tick touches only the labels it detects: a label that none of the
    tick's known results carries keeps its entry (or its absence) and is
    not marked. *)
Theorem tick_leaves_other_labels (m : gmap string Z) (results : list result) (L : string) :
  (∀ r, r ∈ results → known r → label r ≠ L) →
  (tick m results).1 !! L = m !! L
  ∧ marked_count L (tick m results).2 = 0.
Proof.
  intros Hne. rewrite tick_store, tick_marked_count. by apply forEach_frame.
Qed.

Lemma tick_leaves_other_labels_witness :
  (tick {["Student2" := 1700000000000%Z]} [Result "Student1" 1700000000500]).1
    !! "Student2" = ({["Student2" := 1700000000000%Z]} : gmap string Z) !! "Student2"
  ∧ marked_count "Student2"
      (tick {["Student2" := 1700000000000%Z]} [Result "Student1" 1700000000500]).2 = 0.
Proof.
  apply (tick_leaves_other_labels {["Student2" := 1700000000000%Z]}
           [Result "Student1" 1700000000500] "Student2").
  intros r Hr _. apply list_elem_of_singleton in Hr as ->. simpl. congruence.
Defined.

Lemma forEach_keeps_entries L results : ∀ m fd,
  is_Some (m !! L) → is_Some ((forEach m fd results).1.1 !! L).
Proof.
  induction results as [|r results IH]; intros m fd Hm; [done|].
  rewrite forEach_cons. cbn [fst snd]. apply IH.
  destruct (callback_cases m fd r) as [[_ ->]|[(_ & _ & ->)|(_ & _ & ->)]];
    cbn [fst snd]; [done|done|].
  destruct (decide (label r = L)) as [<-|Hne].
  - rewrite lookup_insert_eq. by eexists.
  - by rewrite lookup_insert_ne.
Qed.

Lemma forEach_marks_unseen (r : result) results : ∀ m fd,
  m !! label r = None → r ∈ results → known r →
  1 ≤ marked_count (label r) (forEach m fd results).2
  ∧ is_Some ((forEach m fd results).1.1 !! label r).
Proof.
  induction results as [|r0 results IH]; intros m fd Hm Hr Hk;
    [by apply elem_of_nil in Hr|].
  rewrite forEach_cons. cbn [fst snd]. rewrite marked_count_app.
  destruct (decide (known r0 ∧ label r0 = label r)) as [[Hk0 Heq]|Hne].
  - rewrite callback_known by done.
    replace (should_mark m (label r0) (now r0)) with true
      by (symmetry; apply should_mark_true; left; by rewrite Heq).
    cbn [fst snd]. split.
    + simpl. rewrite Heq, String.eqb_refl. lia.
    + apply forEach_keeps_entries. rewrite Heq, lookup_insert_eq. by eexists.
  - apply elem_of_cons in Hr as [->|Hr]; [by destruct Hne|].
    destruct (callback_frame m fd r0 (label r)) as [H1 _]; [tauto|].
    destruct (IH (forEach_callback m fd r0).1.1 (forEach_callback m fd r0).1.2)
      as [H2 H3]; [by rewrite H1|done|done|].
    split; [lia|done].
Qed.

(** X6. A label with no entry is marked by the tick that detects it: if the
    store has nothing for [L] and a result of the tick carries [L] (not
    "unknown"), the tick calls [onAttendanceMarked(L)] and leaves an entry
    for [L], whatever the clock reads. *)
Theorem unseen_label_is_marked (m : gmap string Z) (results : list result) (r : result) :
  m !! label r = None → r ∈ results → known r →
  1 ≤ marked_count (label r) (tick m results).2
  ∧ is_Some ((tick m results).1 !! label r).
Proof.
  intros Hm Hr Hk. rewrite tick_store, tick_marked_count.
  by apply forEach_marks_unseen.
Qed.

Lemma unseen_label_is_marked_witness :
  1 ≤ marked_count "Student2"
        (tick {["Student1" := 1700000000000%Z]}
              [Result "Student1" 1700000000500; Result "Student2" 1700000000500]).2
  ∧ is_Some ((tick {["Student1" := 1700000000000%Z]}
                [Result "Student1" 1700000000500; Result "Student2" 1700000000500]).1
             !! "Student2").
Proof.
  apply (unseen_label_is_marked {["Student1" := 1700000000000%Z]}
           [Result "Student1" 1700000000500; Result "Student2" 1700000000500]
           (Result "Student2" 1700000000500)).
  - reflexivity.
  - right. by left.
  - unfold known. simpl. congruence.
Defined.

Lemma forEach_calls_sublist results : ∀ m fd,
  (forEach m fd results).2 `sublist_of` map mark_of (filter (λ r, is_known r = true) results).
Proof.
  induction results as [|r results IH]; intros m fd; [done|].
  rewrite forEach_cons. cbn [fst snd]. rewrite filter_cons.
  destruct (callback_cases m fd r) as [[Hu ->]|[(Hk & _ & ->)|(Hk & _ & ->)]];
    cbn [fst snd app].
  - destruct (decide (is_known r = true)) as [Hk%is_known_true|_];
      [by destruct Hk|apply IH].
  - rewrite decide_True by by apply is_known_true. cbn [map].
    apply sublist_cons, IH.
  - rewrite decide_True by by apply is_known_true. cbn [map].
    apply sublist_skip, IH.
Qed.

(** X7. The calls of a tick follow its results: either the tick calls
    [onFaceNotDetected] alone, or its calls are [onAttendanceMarked] calls
    for some of its known results, in the order of the results, each with
    its own result's label and clock reading. *)
Theorem tick_calls_in_result_order (m : gmap string Z) (results : list result) :
  (tick m results).2 = [onFaceNotDetected]
  ∨ (tick m results).2 `sublist_of` map mark_of (filter (λ r, is_known r = true) results).
Proof.
  pose proof (forEach_calls_sublist results m false) as Hsub.
  pose proof (forEach_faceDetected results m false) as Hfd.
  unfold tick. destruct (forEach m false results) as [[m1 fd1] cs1] eqn:Hfe.
  cbn [fst snd] in *. destruct fd1; cbn [negb].
  - right. by rewrite app_nil_r.
  - left. assert (Forall (λ r, label r = "unknown") results) as Hall.
    { apply Forall_forall. intros r Hr. destruct (known_dec r) as [Hk|]; [|done].
      assert (false = true); [|done].
      apply (Hfd _ _ _ eq_refl). right. apply Exists_exists. eauto. }
    rewrite forEach_all_unknown in Hfe by done. by injection Hfe as _ <-.
Qed.

(** ** After unmounting *)

(** X9. Once the elements are unmounted the session is silent, cleared
    interval or not: no event adds a call or changes the store. *)
Theorem detached_session_is_silent (c : component) (es : list event) :
  videoRef c = false →
  calls (run c es) = calls c ∧ lastMarkedTime (run c es) = lastMarkedTime c.
Proof.
  unfold run. revert c. induction es as [|e es IH]; intros c Hv; [done|].
  cbn [fold_left].
  assert (videoRef (step c e) = false ∧ calls (step c e) = calls c
          ∧ lastMarkedTime (step c e) = lastMarkedTime c) as (Hv' & <- & <-).
  { destruct e; cbn [step]; try done.
    - unfold on_interval. by destruct (_ && _).
    - unfold on_resolved. destruct (in_flight c); [done|]. by rewrite Hv.
    - unfold on_rejected. by destruct (in_flight c). }
  by apply IH.
Qed.

Lemma detached_session_is_silent_witness :
  calls (run (session [Interval; RefsDetached])
             [DetectionsResolved [Result "Student1" 1700000000000]; Interval])
  = calls (session [Interval; RefsDetached])
  ∧ lastMarkedTime (run (session [Interval; RefsDetached])
             [DetectionsResolved [Result "Student1" 1700000000000]; Interval])
  = lastMarkedTime (session [Interval; RefsDetached]).
Proof.
  apply (detached_session_is_silent (session [Interval; RefsDetached])
           [DetectionsResolved [Result "Student1" 1700000000000]; Interval]).
  reflexivity.
Defined.

(** ** The store over time *)

Lemma clock_nonzero_results (es : list event) :
  clock_nonzero es → Forall (λ e, Forall (λ r, now r ≠ 0%Z) (results_of e)) es.
Proof.
  unfold clock_nonzero. intros H. eapply Forall_impl; [exact H|].
  intros [|results| | |]; simpl; try done.
  by rewrite Forall_fmap.
Qed.

(** X10. Entries are never removed, and with a clock that never reads 0
    they never go back: a label that has an entry keeps one through every
    later event, and its stored time only grows. *)
Theorem entries_never_go_back (es es' : list event) (L : string) (t : Z) :
  lastMarkedTime (session es) !! L = Some t →
  is_Some (lastMarkedTime (session (es ++ es')) !! L)
  ∧ (clock_nonzero (es ++ es') →
     ∃ t', lastMarkedTime (session (es ++ es')) !! L = Some t' ∧ (t ≤ t')%Z).
Proof.
  intros Hm.
  replace (session (es ++ es')) with (run (session es) es')
    by (unfold session; by rewrite run_app).
  split.
  - apply (run_preserves (λ m _, is_Some (m !! L)) (λ _, True));
      [|apply Forall_trivial_results|by rewrite Hm].
    intros m cs results _ H. rewrite tick_store. by apply forEach_keeps_entries.
  - intros [Hclk Hclk']%Forall_app.
    pose (P := λ (m : gmap string Z) (cs : list call),
            session_inv m cs ∧ ∃ t', m !! L = Some t' ∧ (t ≤ t')%Z).
    assert (HP : P (lastMarkedTime (run (session es) es')) (calls (run (session es) es'))).
    { apply (run_preserves P (λ r, now r ≠ 0%Z)).
      - apply tick_preserves.
        + intros m cs fd r Hr [Hinv (t' & Ht' & Hle)]. split.
          * destruct (forEach_callback m fd r) as [[m1 fd1] cs1] eqn:Hcb.
            by eapply session_inv_callback.
          * destruct (callback_cases m fd r) as [[_ ->]|[(_ & _ & ->)|(Hk & Hsm & ->)]];
              cbn [fst snd]; [by eauto|by eauto|].
            destruct (decide (label r = L)) as [<-|Hne].
            -- rewrite lookup_insert_eq. eexists; split; [done|].
               apply should_mark_true in Hsm as [Hsm|[Hsm|(t0 & Hsm & Hlt)]];
                 rewrite Ht' in Hsm; [done| |injection Hsm as <-; lia].
               injection Hsm as ->. by destruct (inv_nonzero _ _ Hinv _ _ Ht').
            -- rewrite lookup_insert_ne by done. eauto.
        + intros m cs [Hinv Hex]. split; [|done].
          by apply session_inv_snoc_other.
      - by apply clock_nonzero_results.
      - split; [by apply session_inv_session|]. exists t. split; [done|lia]. }
    apply HP.
Qed.

Lemma entries_never_go_back_witness :
  ∃ t', lastMarkedTime (session ([Interval; DetectionsResolved [Result "Student1" 1700000000000]]
                                 ++ scenario 1700000061000)) !! "Student1" = Some t'
        ∧ (1700000000000 ≤ t')%Z.
Proof.
  apply (entries_never_go_back
           [Interval; DetectionsResolved [Result "Student1" 1700000000000]]
           (scenario 1700000061000) "Student1" 1700000000000).
  - reflexivity.
  - unfold clock_nonzero, scenario. repeat constructor; simpl; lia.
Defined.

(** X11. A stored time of 0 does not debounce: [!lastMarkedTime[name]] is
    true for the number 0, so a known label whose entry is 0 is marked
    again at once, whatever the clock reads. *)
Theorem stored_zero_marks_again (m : gmap string Z) (fd : bool) (r : result) :
  known r → m !! label r = Some 0%Z →
  forEach_callback m fd r = (<[label r := now r]> m, true, [mark_of r]).
Proof.
  intros Hk Hm. rewrite callback_known by done.
  replace (should_mark m (label r) (now r)) with true; [done|].
  symmetry. apply should_mark_true. auto.
Qed.

Lemma stored_zero_marks_again_witness :
  forEach_callback {["Student1" := 0%Z]} false (Result "Student1" 1)
  = (<["Student1" := 1%Z]> {["Student1" := 0%Z]}, true,
     [mark_of (Result "Student1" 1)]).
Proof.
  apply (stored_zero_marks_again {["Student1" := 0%Z]} false (Result "Student1" 1)).
  - unfold known. simpl. congruence.
  - reflexivity.
Defined.

(** * Setting up: models, camera, labelled images *)

Lemma loadModels_from_spec (f : string → bool) (ns : list string) :
  (loadModels_from f ns).1 `prefix_of` ns
  ∧ ((loadModels_from f ns).2 = true ↔ ∀ n, n ∈ ns → f n = true)
  ∧ ((loadModels_from f ns).2 = true → (loadModels_from f ns).1 = ns)
  ∧ (∀ n, n ∈ (loadModels_from f ns).1 → f n = false →
       last (loadModels_from f ns).1 = Some n).
Proof.
  induction ns as [|n ns (IH1 & IH2 & IH3 & IH4)]; cbn [loadModels_from].
  - cbn [fst snd]. split; [done|]. split; [|split; [done|]].
    + split; [|done]. intros _ n Hn. by apply elem_of_nil in Hn.
    + intros n Hn. by apply elem_of_nil in Hn.
  - destruct (f n) eqn:Hn.
    + destruct (loadModels_from f ns) as [req ok]. cbn [fst snd] in *.
      split; [by apply prefix_cons|]. split; [|split].
      * rewrite IH2. split.
        -- intros H n' [->|Hn']%elem_of_cons; auto.
        -- intros H n' Hn'. apply H. by right.
      * intros Hok. by rewrite IH3.
      * intros n' [->|Hn']%elem_of_cons Hf; [congruence|].
        specialize (IH4 n' Hn' Hf). destruct req; [by apply elem_of_nil in Hn'|].
        by rewrite last_cons, IH4.
    + cbn [fst snd]. split; [by apply prefix_cons, prefix_nil|].
      split; [|split; [done|]].
      * split; [done|]. intros H. rewrite H in Hn; [done|by left].
      * intros n' Hn' _. by apply list_elem_of_singleton in Hn' as ->.
Qed.

(** X12. The four models are loaded one after the other and the first
    failure ends the loading: the loads requested are a prefix of the four,
    a load that fails is the last one requested, and [modelsLoaded] becomes
    true exactly when all four load (then all four were requested). *)
Theorem loadModels_stops_at_first_failure (loadFromUri : string → bool) :
  (loadModels loadFromUri).1 `prefix_of` nets
  ∧ ((loadModels loadFromUri).2 = true ↔ ∀ n, n ∈ nets → loadFromUri n = true)
  ∧ ((loadModels loadFromUri).2 = true → (loadModels loadFromUri).1 = nets)
  ∧ (∀ n, n ∈ (loadModels loadFromUri).1 → loadFromUri n = false →
       last (loadModels loadFromUri).1 = Some n).
Proof. apply loadModels_from_spec. Qed.

(** X13. The camera is asked for only after all four models have loaded
    and with the video element mounted; the stream reaches the video only
    if, besides, [getUserMedia] resolves and the element is still mounted
    then; and the only console output of the setup is the error of a
    rejected [getUserMedia]. *)
Theorem camera_needs_all_models (loadFromUri : string → bool) (videoRef_effect : bool)
    (getUserMedia : media) (videoRef_then : bool) :
  let c := mount loadFromUri videoRef_effect getUserMedia videoRef_then in
  (camera_requested c = true ↔
     (∀ n, n ∈ nets → loadFromUri n = true) ∧ videoRef_effect = true)
  ∧ (srcObject c = true ↔
     camera_requested c = true ∧ getUserMedia = Stream ∧ videoRef_then = true)
  ∧ (∀ line, line ∈ console_out c ↔
     camera_requested c = true ∧ ∃ err, getUserMedia = MediaError err ∧ line = console_error err).
Proof.
  intros c. subst c. unfold mount.
  destruct (loadModels_from_spec loadFromUri nets) as (_ & Hok & _ & _).
  fold (loadModels loadFromUri) in Hok.
  destruct (loadModels loadFromUri) as [req ok]. cbn [fst snd] in Hok.
  assert (Hoff : ok && videoRef_effect = false →
            ¬ ((∀ n, n ∈ nets → loadFromUri n = true) ∧ videoRef_effect = true)).
  { intros Hb [Hall ->]. apply Hok in Hall as ->. done. }
  destruct (ok && videoRef_effect) eqn:Hon.
  - apply andb_true_iff in Hon as [-> ->].
    assert (Hall : ∀ n, n ∈ nets → loadFromUri n = true) by by apply Hok.
    destruct getUserMedia as [|err];
      cbn [startVideo camera_requested srcObject console_out].
    + split; [done|]. split; [split; [done|by intros (_ & _ & ?)]|].
      intros line. split; [intros H; by apply elem_of_nil in H|].
      by intros (_ & ? & ? & _).
    + split; [done|]. split; [split; [done|by intros (_ & ? & _)]|].
      intros line. rewrite list_elem_of_singleton. split.
      * intros ->. split; [done|]. by exists err.
      * by intros (_ & err' & [= ->] & ->).
  - cbn [camera_requested srcObject console_out]. specialize (Hoff eq_refl).
    split; [split; [done|by intros ?]|].
    split; [split; [done|by intros [? _]]|].
    intros line. split; [intros H; by apply elem_of_nil in H|by intros [? _]].
Qed.

Example imagePath_student1 : imagePath "Student1" 1 = "/labeled_images/Student1/1.jpg".
Proof. reflexivity. Qed.

Section LoadLabeledImagesFacts.
Context {Image Descriptor : Type}.
Variable fetchImage : string → option Image.
Variable detectSingleFace : Image → option (option Descriptor).

Lemma load_label_eq (L : string) :
  load_label fetchImage detectSingleFace L =
    ((load_image fetchImage detectSingleFace L 1).1
       ++ (load_image fetchImage detectSingleFace L 2).1,
     (load_image fetchImage detectSingleFace L 1).2
       ++ (load_image fetchImage detectSingleFace L 2).2).
Proof.
  unfold load_label. cbn [seq foldl].
  destruct (load_image fetchImage detectSingleFace L 1) as [p1 o1].
  by destruct (load_image fetchImage detectSingleFace L 2) as [p2 o2].
Qed.

(** The descriptor image [i] of [L] contributes: one when the image is
    fetched and a face is found on it, none otherwise. *)
Lemma load_image_descriptor (L : string) (i : nat) (x : Descriptor) :
  x ∈ (load_image fetchImage detectSingleFace L i).1 ↔
  ∃ img, fetchImage (imagePath L i) = Some img ∧ detectSingleFace img = Some (Some x).
Proof.
  unfold load_image. destruct (fetchImage (imagePath L i)) as [img|].
  2: { cbn [fst]. split; [intros H; by apply elem_of_nil in H|by intros (? & ? & _)]. }
  destruct (detectSingleFace img) as [[y|]|] eqn:Hd; cbn [fst].
  - rewrite list_elem_of_singleton. split.
    + intros ->. by exists img.
    + intros (img' & [= <-] & Hd'). congruence.
  - split; [intros H; by apply elem_of_nil in H|].
    intros (img' & [= <-] & Hd'). congruence.
  - split; [intros H; by apply elem_of_nil in H|].
    intros (img' & [= <-] & Hd'). congruence.
Qed.

Lemma load_image_length (L : string) (i : nat) :
  length (load_image fetchImage detectSingleFace L i).1 ≤ 1.
Proof.
  unfold load_image. destruct (fetchImage (imagePath L i)) as [img|]; [|simpl; lia].
  destruct (detectSingleFace img) as [[y|]|]; simpl; lia.
Qed.

(** X14. [loadLabeledImages] always yields one entry per label, in the
    order of [labels], each with at most two descriptors, whatever fails:
    a label all of whose images fail is still there, with no descriptor. *)
Theorem loadLabeledImages_shape :
  map fst (loadLabeledImages fetchImage detectSingleFace) = labels
  ∧ Forall (λ p, length p.2 ≤ 2) (loadLabeledImages fetchImage detectSingleFace).
Proof.
  unfold loadLabeledImages. split.
  - rewrite map_map. cbn [fst]. apply map_id.
  - apply Forall_map. apply Forall_forall. intros L _. cbn [snd].
    rewrite load_label_eq. cbn [fst]. rewrite length_app.
    pose proof (load_image_length L 1). pose proof (load_image_length L 2). lia.
Qed.

(** X15. The descriptors of a label are exactly those of its images 1 and 2
    that are fetched and show a face: a failure on one image does not lose
    the other, and nothing else gets in. *)
Theorem load_label_descriptors (L : string) (x : Descriptor) :
  x ∈ (load_label fetchImage detectSingleFace L).1 ↔
  ∃ i img, (i = 1 ∨ i = 2)
    ∧ fetchImage (imagePath L i) = Some img
    ∧ detectSingleFace img = Some (Some x).
Proof.
  rewrite load_label_eq. cbn [fst]. rewrite elem_of_app, !load_image_descriptor. split.
  - intros [(img & ? & ?)|(img & ? & ?)]; [exists 1, img|exists 2, img]; auto.
  - intros (i & img & [->| ->] & ? & ?); [left|right]; by exists img.
Qed.

(** X16. Both images of a label are always attempted, and only a rejected
    fetch or detection is reported: the console shows the "Fetching" line
    of image 1 and of image 2 in every case, and the error line of the
    label exactly when the fetch or the detection of one of them rejects
    (an image without a face is not an error). *)
Theorem load_label_console (L : string) :
  let out := (load_label fetchImage detectSingleFace L).2 in
  (∀ i, i = 1 ∨ i = 2 →
     console_log ("Fetching image from: " +:+ imagePath L i) ∈ out)
  ∧ (console_error ("Error fetching image for " +:+ L +:+ ":") ∈ out ↔
     ∃ i, (i = 1 ∨ i = 2)
       ∧ (fetchImage (imagePath L i) = None
          ∨ ∃ img, fetchImage (imagePath L i) = Some img ∧ detectSingleFace img = None)).
Proof.
  intros out. subst out. rewrite load_label_eq. cbn [snd].
  assert (Hlog : ∀ i, console_log ("Fetching image from: " +:+ imagePath L i)
                        ∈ (load_image fetchImage detectSingleFace L i).2).
  { intros i. unfold load_image. destruct (fetchImage (imagePath L i)) as [img|];
      [destruct (detectSingleFace img) as [[y|]|]|]; cbn [snd]; by left. }
  assert (Herr : ∀ i, console_error ("Error fetching image for " +:+ L +:+ ":")
                        ∈ (load_image fetchImage detectSingleFace L i).2 ↔
                      (fetchImage (imagePath L i) = None
                       ∨ ∃ img, fetchImage (imagePath L i) = Some img
                                ∧ detectSingleFace img = None)).
  { intros i. unfold load_image. destruct (fetchImage (imagePath L i)) as [img|].
    2: { cbn [snd]. split; [by left|]. intros _. right. by left. }
    destruct (detectSingleFace img) as [[y|]|] eqn:Hd; cbn [snd].
    - rewrite list_elem_of_singleton. split; [done|].
      intros [?|(img' & [= <-] & ?)]; congruence.
    - rewrite list_elem_of_singleton. split; [done|].
      intros [?|(img' & [= <-] & ?)]; congruence.
    - split; [|intros _; right; by left].
      intros _. right. by exists img. }
  split.
  - intros i [-> | ->]; apply elem_of_app; [left|right]; apply Hlog.
  - rewrite elem_of_app, !Herr. split.
    + intros [H|H]; [exists 1|exists 2]; auto.
    + intros (i & [-> | ->] & H); auto.
Qed.

End LoadLabeledImagesFacts.

(** * A tick with a known label *)

Lemma should_mark_same_entry (m m' : gmap string Z) (L : string) (t : Z) :
  m !! L = m' !! L → should_mark m L t = should_mark m' L t.
Proof. unfold should_mark. by intros ->. Qed.

(** A label whose cooldown is over at each of its occurrences is marked by
    the loop: at its first occurrence the entry is still the one the loop
    started with. *)
Lemma forEach_marks_ready (L : string) results : ∀ m fd,
  L ≠ "unknown" →
  (∃ r, r ∈ results ∧ label r = L) →
  (∀ r, r ∈ results → label r = L → should_mark m L (now r) = true) →
  1 ≤ marked_count L (forEach m fd results).2.
Proof.
  induction results as [|r0 results IH]; intros m fd HL (r & Hr & Hlab) Hready.
  { by apply elem_of_nil in Hr. }
  rewrite forEach_cons. cbn [fst snd]. rewrite marked_count_app.
  destruct (decide (label r0 = L)) as [H0|H0].
  - assert (known r0) as Hk0 by (unfold known; congruence).
    rewrite callback_known by done. rewrite H0.
    rewrite Hready by (by left || done). cbn [fst snd].
    simpl. rewrite String.eqb_refl. lia.
  - apply elem_of_cons in Hr as [->|Hr]; [done|].
    destruct (callback_frame m fd r0 L) as [H1 _]; [done|].
    assert (1 ≤ marked_count L
              (forEach (forEach_callback m fd r0).1.1 (forEach_callback m fd r0).1.2
                 results).2); [|lia].
    apply IH; [done|by exists r|].
    intros r' Hr' Hlab'. rewrite (should_mark_same_entry _ m) by done.
    apply Hready; [by right|done].
Qed.

(** C3. A tick calls [onFaceNotDetected] exactly when none of its results
    has a label other than "unknown" (no result at all included), and then
    it is the tick's only call. In every tick that has a result with a
    known label [L] whose cooldown is over (no entry, or every reading taken
    for [L] more than 60000 ms after its entry), [onFaceNotDetected] is not
    called and [onAttendanceMarked(L)] is: at least once, and exactly once
    when the readings of the tick are not 0 and at most 60000 ms apart. On
    the results unknown, "Student1" in particular, with the cooldown of
    "Student1" over, the tick's calls are exactly
    [onAttendanceMarked("Student1")]. *)
Theorem notDetected_iff_no_known_label (m : gmap string Z) (results : list result)
    (n1 n2 : Z) (L : string) :
  (onFaceNotDetected ∈ (tick m results).2 ↔ Forall (λ r, label r = "unknown") results)
  ∧ (Forall (λ r, label r = "unknown") results → (tick m results).2 = [onFaceNotDetected])
  ∧ (m !! "Student1" = None ∨ (∃ t, m !! "Student1" = Some t ∧ (60000 < n2 - t)%Z) →
     (tick m [Result "unknown" n1; Result "Student1" n2]).2
     = [onAttendanceMarked "Student1" n2])
  ∧ (L ≠ "unknown" →
     (∃ r, r ∈ results ∧ label r = L) →
     (∀ r, r ∈ results → label r = L →
        m !! L = None ∨ ∃ t, m !! L = Some t ∧ (60000 < now r - t)%Z) →
     (onFaceNotDetected ∉ (tick m results).2)
     ∧ 1 ≤ marked_count L (tick m results).2
     ∧ (Forall (λ r, now r ≠ 0%Z) results →
        (∀ r1 r2, r1 ∈ results → r2 ∈ results → (now r2 - now r1 ≤ 60000)%Z) →
        marked_count L (tick m results).2 = 1)).
Proof.
  assert (Hall : Forall (λ r, label r = "unknown") results →
                 (tick m results).2 = [onFaceNotDetected]).
  { intros Hall. unfold tick. by rewrite forEach_all_unknown. }
  assert (Hiff : onFaceNotDetected ∈ (tick m results).2
                 ↔ Forall (λ r, label r = "unknown") results).
  { split; [|intros H; rewrite (Hall H); by left].
    unfold tick. destruct (forEach m false results) as [[m1 fd1] cs1] eqn:Hfe. simpl.
    intros [Hc|Hc]%elem_of_app.
    - by destruct (forEach_calls_marked _ _ _ _ _ _ _ Hfe Hc) as (? & _ & _ & ?).
    - destruct fd1; simpl in Hc; [by apply elem_of_nil in Hc|].
      apply Forall_forall. intros r Hr.
      destruct (known_dec r) as [Hk|Hu]; [|done].
      assert (false = true) as Habs; [|done].
      apply (forEach_faceDetected _ _ _ _ _ _ Hfe). right.
      apply Exists_exists. eauto. }
  split; [exact Hiff|]. split; [exact Hall|]. split.
  - intros Hover. unfold tick. cbn [forEach].
    rewrite callback_unknown by done.
    rewrite (callback_known m false (Result "Student1" n2)) by done. cbn [label now].
    replace (should_mark m "Student1" n2) with true; [done|].
    symmetry. apply should_mark_true. tauto.
  - intros HL (r & Hr & Hlab) Hover.
    assert (Hge : 1 ≤ marked_count L (tick m results).2).
    { rewrite tick_marked_count. apply forEach_marks_ready; [done|by exists r|].
      intros r' Hr' Hlab'. apply should_mark_true.
      destruct (Hover r' Hr' Hlab') as [?|?]; auto. }
    split; [|split; [exact Hge|]].
    + rewrite Hiff. intros Hunk. rewrite Forall_forall in Hunk.
      apply HL. rewrite <- Hlab. by apply Hunk.
    + intros Hnz Hspan.
      pose proof (forEach_marks_at_most_once L results m false Hnz Hspan) as Hle.
      rewrite tick_marked_count in *. lia.
Qed.

Lemma notDetected_iff_no_known_label_witness :
  (onFaceNotDetected
     ∉ (tick {["Student1" := 1700000000000%Z]}
             [Result "unknown" 1700000061000; Result "Student1" 1700000061001;
              Result "Student1" 1700000061002]).2)
  ∧ marked_count "Student1"
      (tick {["Student1" := 1700000000000%Z]}
            [Result "unknown" 1700000061000; Result "Student1" 1700000061001;
             Result "Student1" 1700000061002]).2 = 1.
Proof.
  pose proof (notDetected_iff_no_known_label {["Student1" := 1700000000000%Z]}
           [Result "unknown" 1700000061000; Result "Student1" 1700000061001;
            Result "Student1" 1700000061002] 0 0 "Student1") as (_ & _ & _ & H).
  destruct H as (H1 & _ & H3).
  - congruence.
  - exists (Result "Student1" 1700000061001). split; [right; by left|reflexivity].
  - intros r Hr Hlab. right. exists 1700000000000%Z. split; [reflexivity|].
    repeat (apply elem_of_cons in Hr as [->|Hr]); [| | |by apply elem_of_nil in Hr];
      simpl in *; [congruence|lia|lia].
  - split; [exact H1|]. apply H3.
    + repeat constructor; simpl; lia.
    + intros r1 r2 Hr1 Hr2.
      repeat (apply elem_of_cons in Hr1 as [->|Hr1]); [| | |by apply elem_of_nil in Hr1];
      repeat (apply elem_of_cons in Hr2 as [->|Hr2]); try (by apply elem_of_nil in Hr2);
      simpl; lia.
Defined.

(** * The component across play events *)















(** A request in flight when the component is unmounted: its result brings
    no call, and the callback ends as a rejected promise. *)
Example in_flight_at_unmount :
  let p := render [Play; Timer 0 Fires; Unmount;
                   Timer 0 (Resolves [Result "Student1" 1700000000000])] in
  received p = [] ∧ (rejected <$> plays p) = [1].
Proof. split; reflexivity. Qed.


